(** * MPS compatibility wrappers (src/utils/mps_compat.py)

    The module wraps four operators of the tensor library (matmul, bmm, mm,
    einsum).  Each wrapper inspects the device of its first operand and the
    dtypes of all operands and either calls the operator as is, or copies
    the operands to the CPU, calls the operator there and moves the result
    back.

    Tensors are Python objects: the wrappers receive references, and the
    library calls allocate new objects.  The embedding therefore threads an
    object store through every call, together with the list of library calls
    that were made, so that aliasing, copies and the order of calls can be
    stated. *)

From Stdlib Require Import String List Bool Arith ZArith Lia.
From stdpp Require Import base decidable list strings.
Import ListNotations.
Local Open Scope string_scope.
Local Open Scope list_scope.

(** ** Devices and dtypes *)

(** [torch.device]: a type string and an optional ordinal. *)
Record Device := mkDevice { dev_type : string; dev_index : option nat }.

#[global] Instance Device_eq_dec : EqDecision Device.
Proof. solve_decision. Defined.

Definition cpu_device : Device := mkDevice "cpu" None.

(** [torch.dtype]; the three complex dtypes are [complex32] (alias chalf),
    [complex64] (cfloat) and [complex128] (cdouble). *)
Inductive DType :=
  | float16 | bfloat16 | float32 | float64
  | complex32 | complex64 | complex128
  | uint8 | int8 | int16 | int32 | int64
  | bool_.

#[global] Instance DType_eq_dec : EqDecision DType.
Proof. solve_decision. Defined.

(** [dtype.is_complex]: the dtype holds complex numbers. *)
Definition is_complex (d : DType) : bool :=
  match d with
  | complex32 | complex64 | complex128 => true
  | _ => false
  end.

(** ** The operators the module calls *)

Inductive native_op :=
  | Matmul                      (* a @ b, torch.matmul *)
  | Bmm                         (* torch.bmm *)
  | Mm                          (* torch.mm *)
  | Einsum (equation : string). (* torch.einsum(equation, ...) *)

(** Errors raised inside the tensor library. *)
Inductive lib_error :=
  | DeviceMismatch                                   (* operands on different devices *)
  | NotImplemented (dev : string) (op : native_op)   (* no kernel on that device *)
  | Rejected (msg : string).                         (* shapes, dtypes, equation *)

(** What the module needs to know of the tensor library: the contents a
    tensor carries, what the kernel of an operator on a device of a given
    type computes from the contents of its operands (or the message it
    fails with), and which device type has a kernel of which operator for
    which dtypes.  Nothing relates the kernel of one device type to that
    of another. *)
Class Library := {
  data : Type;
  op_value : string -> native_op -> list (DType * data) -> string + (DType * data);
  implemented : string -> native_op -> list DType -> bool
}.

Section MpsCompat.
Context {L : Library}.

Record Tensor := mkTensor { device : Device; dtype : DType; payload : data }.

(** The contents of a tensor, without its placement. *)
Definition value (t : Tensor) : DType * data := (dtype t, payload t).

Definition on_device (d : Device) (t : Tensor) : Tensor :=
  mkTensor d (dtype t) (payload t).

(** ** Object store, call log and exceptions *)

Definition loc := nat.
Definition Heap := list Tensor.

Inductive Call :=
  | CallCpu (self result : loc)                  (* self.cpu() *)
  | CallTo (self : loc) (d : Device) (result : loc)  (* self.to(d) *)
  | CallNative (op : native_op) (args : list loc).

Inductive exn :=
  | ValueError (msg : string)
  | TorchError (e : lib_error)
  | InvalidRef (l : loc).       (* a reference to no object; no caller has one *)

Record Outcome (A : Type) := mkOutcome {
  out_heap : Heap;
  out_calls : list Call;
  out_res : exn + A
}.
Arguments mkOutcome {A}.
Arguments out_heap {A}.
Arguments out_calls {A}.
Arguments out_res {A}.

Definition M (A : Type) := Heap -> Outcome A.

Definition ret {A} (x : A) : M A := fun h => mkOutcome h [] (inr x).

Definition raise {A} (e : exn) : M A := fun h => mkOutcome h [] (inl e).

Definition bind {A B} (m : M A) (f : A -> M B) : M B := fun h =>
  let o := m h in
  match out_res o with
  | inl e => mkOutcome (out_heap o) (out_calls o) (inl e)
  | inr x =>
      let o' := f x (out_heap o) in
      mkOutcome (out_heap o') (out_calls o ++ out_calls o') (out_res o')
  end.

Notation "'do' x <- m ; k" := (bind m (fun x => k))
  (at level 10, x name, m at level 100, k at level 200).

Definition deref (l : loc) : M Tensor := fun h =>
  match h !! l with
  | Some t => mkOutcome h [] (inr t)
  | None => mkOutcome h [] (inl (InvalidRef l))
  end.

Definition alloc (t : Tensor) : M loc := fun h =>
  mkOutcome (h ++ [t]) [] (inr (length h)).

Definition record (c : Call) : M unit := fun h => mkOutcome h [c] (inr tt).

Fixpoint mapM {A B} (f : A -> M B) (l : list A) : M (list B) :=
  match l with
  | [] => ret []
  | x :: rest => do y <- f x ; do ys <- mapM f rest ; ret (y :: ys)
  end.

(** ** The library calls *)

(** [Tensor.cpu()]: the object itself when it is already in CPU memory,
    otherwise a new object with the same contents on the CPU. *)
Definition cpu (self : loc) : M loc :=
  do t <- deref self ;
  do r <- (if String.eqb (dev_type (device t)) "cpu" then ret self
        else alloc (on_device cpu_device t)) ;
  do _ <- record (CallCpu self r) ;
  ret r.

(** [Tensor.to(device)]: the object itself when it is already there,
    otherwise a new object with the same contents on [d]. *)
Definition to (self : loc) (d : Device) : M loc :=
  do t <- deref self ;
  do r <- (if bool_decide (device t = d) then ret self
        else alloc (on_device d t)) ;
  do _ <- record (CallTo self d r) ;
  ret r.

(** What an operator call yields for given operand tensors: all operands
    on one device, that device having a kernel of the operator for their
    dtypes, and then what that kernel computes, placed on that device. *)
Definition dispatch (op : native_op) (ts : list Tensor) : lib_error + Tensor :=
  match ts with
  | [] => inl (Rejected "no operands")
  | t0 :: _ =>
      if forallb (fun t => bool_decide (device t = device t0)) ts then
        if implemented (dev_type (device t0)) op (map dtype ts) then
          match op_value (dev_type (device t0)) op (map value ts) with
          | inl msg => inl (Rejected msg)
          | inr v => inr (mkTensor (device t0) (fst v) (snd v))
          end
        else inl (NotImplemented (dev_type (device t0)) op)
      else inl DeviceMismatch
  end.

(** An out-of-place operator call: the operands are read, the result is a
    new object. *)
Definition torch_call (op : native_op) (args : list loc) : M loc :=
  do ts <- mapM deref args ;
  do _ <- record (CallNative op args) ;
  match dispatch op ts with
  | inl e => raise (TorchError e)
  | inr r => alloc r
  end.

Definition torch_matmul (a b : loc) : M loc := torch_call Matmul [a; b].
Definition torch_bmm (a b : loc) : M loc := torch_call Bmm [a; b].
Definition torch_mm (a b : loc) : M loc := torch_call Mm [a; b].
Definition torch_einsum (equation : string) (operands : list loc) : M loc :=
  torch_call (Einsum equation) operands.

(** ** The module *)

(** The [for] loop of [_needs_cpu_fallback], with its early return. *)
Fixpoint any_listed_complex (tensors : list Tensor) : bool :=
  match tensors with
  | [] => false
  | tensor :: rest =>
      if bool_decide (dtype tensor ∈ [complex64; complex128]) then true
      else any_listed_complex rest
  end.

Definition _needs_cpu_fallback (device : Device) (tensors : list Tensor) : bool :=
  if negb (String.eqb (dev_type device) "mps") then false
  else any_listed_complex tensors.

Definition mps_matmul (a b : loc) : M loc :=
  do ta <- deref a ;
  do tb <- deref b ;
  if _needs_cpu_fallback (device ta) [ta; tb] then
    let device := device ta in
    do a' <- cpu a ;
    do b' <- cpu b ;
    do result <- torch_matmul a' b' ;
    to result device
  else torch_matmul a b.

Definition mps_einsum (equation : string) (operands : list loc) : M loc :=
  match operands with
  | [] => raise (ValueError "No operands provided to mps_einsum")
  | first :: _ =>
      do ts <- mapM deref operands ;
      do t0 <- deref first ;
      if _needs_cpu_fallback (device t0) ts then
        let device := device t0 in
        do cpu_operands <- mapM cpu operands ;
        do result <- torch_einsum equation cpu_operands ;
        to result device
      else torch_einsum equation operands
  end.

Definition mps_bmm (a b : loc) : M loc :=
  do ta <- deref a ;
  do tb <- deref b ;
  if _needs_cpu_fallback (device ta) [ta; tb] then
    let device := device ta in
    do a' <- cpu a ;
    do b' <- cpu b ;
    do result <- torch_bmm a' b' ;
    to result device
  else torch_bmm a b.

Definition mps_mm (a b : loc) : M loc :=
  do ta <- deref a ;
  do tb <- deref b ;
  if _needs_cpu_fallback (device ta) [ta; tb] then
    let device := device ta in
    do a' <- cpu a ;
    do b' <- cpu b ;
    do result <- torch_mm a' b' ;
    to result device
  else torch_mm a b.

(** [contract = mps_einsum] *)
Definition contract : string -> list loc -> M loc := mps_einsum.

End MpsCompat.

Arguments mkOutcome {L A}.
Arguments out_heap {L A}.
Arguments out_calls {L A}.
Arguments out_res {L A}.

(** The four functions share one shape; [wrapper] is that shape, over the
    operator and a non-empty operand list.  The theorems below are proved
    for it once and carried over to the four functions. *)
Definition wrapper `{Library} (op : native_op) (first : loc) (rest : list loc)
  : M loc :=
  bind (mapM deref (first :: rest)) (fun ts =>
  bind (deref first) (fun t0 =>
  if _needs_cpu_fallback (device t0) ts then
    bind (mapM cpu (first :: rest)) (fun cpu_operands =>
    bind (torch_call op cpu_operands) (fun result =>
    to result (device t0)))
  else torch_call op (first :: rest))).

(** The tensor that [t.cpu()] denotes. *)
Definition to_cpu `{Library} (t : Tensor) : Tensor :=
  if String.eqb (dev_type (device t)) "cpu" then t else on_device cpu_device t.

(** The fallback path was taken: some operand had [.cpu()] called on it. *)
Definition is_cpu_call (c : Call) : bool :=
  match c with CallCpu _ _ => true | _ => false end.

Definition took_fallback (calls : list Call) : bool := existsb is_cpu_call calls.

(** [ls] refer, in [h], to the tensors [ts]. *)
Definition refers `{Library} (h : Heap) (ls : list loc) (ts : list Tensor) : Prop :=
  Forall2 (fun l t => h !! l = Some t) ls ts.

(** A call to one of the four exported wrappers. *)
Inductive Invocation :=
  | CallMatmul (a b : loc)
  | CallEinsum (equation : string) (operands : list loc)
  | CallBmm (a b : loc)
  | CallMm (a b : loc).

Definition invoke `{Library} (c : Invocation) : M loc :=
  match c with
  | CallMatmul a b => mps_matmul a b
  | CallEinsum equation operands => mps_einsum equation operands
  | CallBmm a b => mps_bmm a b
  | CallMm a b => mps_mm a b
  end.

Definition operator (c : Invocation) : native_op :=
  match c with
  | CallMatmul _ _ => Matmul
  | CallEinsum equation _ => Einsum equation
  | CallBmm _ _ => Bmm
  | CallMm _ _ => Mm
  end.

Definition operands (c : Invocation) : list loc :=
  match c with
  | CallMatmul a b | CallBmm a b | CallMm a b => [a; b]
  | CallEinsum _ operands => operands
  end.

(** The native operation applied directly to the same inputs. *)
Definition native `{Library} (c : Invocation) : M loc :=
  torch_call (operator c) (operands c).

(** The fallback path of a call, for the device [d] of its first operand:
    every operand through [.cpu()], the operator on the results, and the
    result through [.to(d)]. *)
Definition fallback `{Library} (c : Invocation) (d : Device) : M loc :=
  bind (mapM cpu (operands c)) (fun cpu_operands =>
  bind (torch_call (operator c) cpu_operands) (fun result =>
  to result d)).

(** The drop-in claim as the specification words it: whatever tensor a
    wrapper returns, the native operation applied directly to the same
    inputs returns a tensor of the same value. *)
Definition drop_in `{Library} : Prop :=
  forall c h ts h' calls r t,
    refers h (operands c) ts ->
    invoke c h = mkOutcome h' calls (inr r) ->
    h' !! r = Some t ->
    exists h1 calls1 r1 t1,
      native c h = mkOutcome h1 calls1 (inr r1) /\
      h1 !! r1 = Some t1 /\
      value t1 = value t.

(** A CPU tensor reports the device [cpu], without an ordinal. *)
Definition cpu_canonical `{Library} (t : Tensor) : Prop :=
  dev_type (device t) = "cpu" -> device t = cpu_device.

(** No [ValueError] comes out of [m]. *)
Definition no_value_error `{Library} {A} (m : M A) : Prop :=
  forall h msg, out_res (m h) <> inl (ValueError msg).

(** [t] is in CPU memory. *)
Definition on_cpu `{Library} (t : Tensor) : bool :=
  String.eqb (dev_type (device t)) "cpu".

(** The objects that [[op.cpu() for op in operands]] adds to the store:
    one CPU copy for each operand that is not in CPU memory, in order. *)
Definition cpu_copies `{Library} (ts : list Tensor) : list Tensor :=
  map (on_device cpu_device) (List.filter (fun t => negb (on_cpu t)) ts).

(** The references that [[op.cpu() for op in operands]] evaluates to in a
    store of [n] objects: the operand itself when it is in CPU memory,
    the next new object otherwise. *)
Fixpoint cpu_refs `{Library} (n : nat) (ls : list loc) (ts : list Tensor)
  : list loc :=
  match ls, ts with
  | l :: ls, t :: ts =>
      if on_cpu t then l :: cpu_refs n ls ts else n :: cpu_refs (S n) ls ts
  | _, _ => []
  end.

(** ** A reference instance of the library

    Tensors of Gaussian integers in row-major layout, with the matrix
    product, its batched form and the two corresponding [einsum] equations.
    As the module's docstring says of MPS, the "mps" device has no kernels
    for complex dtypes.  The instance is used to run the module on concrete
    tensors. *)
Module RefTorch.

Definition cplx : Type := Z * Z.

Definition cadd (x y : cplx) : cplx := (fst x + fst y, snd x + snd y)%Z.
Definition cmul (x y : cplx) : cplx :=
  (fst x * fst y - snd x * snd y, fst x * snd y + snd x * fst y)%Z.

Record array := mkArray { shape : list nat; elems : list cplx }.

Definition at_ (xs : list cplx) (i : nat) : cplx := nth i xs (0, 0)%Z.

(** (n x k) times (k x m), row-major. *)
Definition mm_elems (n k m : nat) (A B : list cplx) : list cplx :=
  flat_map (fun i =>
    map (fun j =>
      fold_right (fun l acc => cadd (cmul (at_ A (i * k + l)) (at_ B (l * m + j))) acc)
                 (0, 0)%Z (seq 0 k))
      (seq 0 m))
    (seq 0 n).

Definition bmm_elems (batch n k m : nat) (A B : list cplx) : list cplx :=
  flat_map (fun b =>
    mm_elems n k m (firstn (n * k) (skipn (b * n * k) A))
                   (firstn (k * m) (skipn (b * k * m) B)))
    (seq 0 batch).

Definition well_shaped (x : array) : bool :=
  Nat.eqb (length (elems x)) (fold_right Nat.mul 1 (shape x)).

Definition mm_value (x y : array) : string + array :=
  match shape x, shape y with
  | [n; k], [k'; m] =>
      if Nat.eqb k k' && well_shaped x && well_shaped y
      then inr (mkArray [n; m] (mm_elems n k m (elems x) (elems y)))
      else inl "mat1 and mat2 shapes cannot be multiplied"
  | _, _ => inl "expected 2D tensors"
  end.

Definition bmm_value (x y : array) : string + array :=
  match shape x, shape y with
  | [b; n; k], [b'; k'; m] =>
      if Nat.eqb b b' && Nat.eqb k k' && well_shaped x && well_shaped y
      then inr (mkArray [b; n; m] (bmm_elems b n k m (elems x) (elems y)))
      else inl "batch shapes cannot be multiplied"
  | _, _ => inl "expected 3D tensors"
  end.

Definition binary (f : array -> array -> string + array)
    (operands : list (DType * array)) : string + (DType * array) :=
  match operands with
  | [(dx, x); (dy, y)] =>
      if bool_decide (dx = dy) then
        match f x y with
        | inl msg => inl msg
        | inr r => inr (dx, r)
        end
      else inl "expected operands of one dtype"
  | _ => inl "expected two operands"
  end.

Definition ref_op_value (dev : string) (op : native_op)
    (operands : list (DType * array)) : string + (DType * array) :=
  match op with
  | Mm => binary mm_value operands
  | Bmm => binary bmm_value operands
  | Matmul =>
      binary (fun x y =>
        match length (shape x) with
        | 2 => mm_value x y
        | 3 => bmm_value x y
        | _ => inl "rank outside the reference kernels"
        end) operands
  | Einsum equation =>
      if String.eqb equation "ij,jk->ik" then binary mm_value operands
      else if String.eqb equation "bij,bjk->bik" then binary bmm_value operands
      else inl "equation outside the reference kernels"
  end.

Definition ref_implemented (dev : string) (op : native_op) (dts : list DType) : bool :=
  if String.eqb dev "mps" then forallb (fun d => negb (is_complex d)) dts
  else true.

#[global] Instance ref_library : Library := {|
  data := array;
  op_value := ref_op_value;
  implemented := ref_implemented
|}.

(** The same kernels on a backend that has them for every dtype on every
    device, 'mps' included. *)
Definition full_library : Library := {|
  data := array;
  op_value := ref_op_value;
  implemented := fun _ _ _ => true
|}.

(** Sample objects: 2 x 2 matrices on the MPS device and on the CPU. *)
Definition mps0 : Device := mkDevice "mps" (Some 0).
Definition cuda0 : Device := mkDevice "cuda" (Some 0).

Definition m1 : array := mkArray [2; 2] [(1, 0); (0, 1); (2, 0); (0, 0)]%Z.
Definition m2 : array := mkArray [2; 2] [(0, 1); (1, 0); (1, 1); (3, 0)]%Z.
Definition r1 : array := mkArray [2; 2] [(1, 0); (2, 0); (3, 0); (4, 0)]%Z.

Definition ta : Tensor := mkTensor mps0 complex64 m1.
Definition tb : Tensor := mkTensor mps0 complex64 m2.
Definition tr : Tensor := mkTensor mps0 float32 r1.
Definition tb_cpu : Tensor := mkTensor cpu_device complex64 m2.
Definition tr_cpu : Tensor := mkTensor cpu_device float32 r1.
Definition th : Tensor := mkTensor mps0 complex32 m1.
Definition ta_cuda : Tensor := mkTensor cuda0 complex64 m1.
Definition tb_cuda : Tensor := mkTensor cuda0 complex64 m2.

Definition heap0 : Heap :=
  [ta; tb; tr; tb_cpu; tr_cpu; th; ta_cuda; tb_cuda].

(** As [heap0] at 0 and 1, with the second object on another device. *)
Definition heap1 : Heap := [ta; tb_cuda].

(** Two complex64 matrices on 'mps', for [full_library]. *)
Definition heap_full : @Heap full_library :=
  [ @mkTensor full_library mps0 complex64 m1;
    @mkTensor full_library mps0 complex64 m2 ].

End RefTorch.

(** ** Running the monad *)

Section Run.
Context {L : Library}.

Lemma bind_ok {A B} (m : M A) (f : A -> M B) h h1 c1 x :
  m h = mkOutcome h1 c1 (inr x) ->
  bind m f h =
    mkOutcome (out_heap (f x h1)) (c1 ++ out_calls (f x h1)) (out_res (f x h1)).
Proof. intros E. unfold bind. rewrite E. reflexivity. Qed.

Lemma bind_raise {A B} (m : M A) (f : A -> M B) h h1 c1 e :
  m h = mkOutcome h1 c1 (inl e) ->
  bind m f h = mkOutcome h1 c1 (inl e).
Proof. intros E. unfold bind. rewrite E. reflexivity. Qed.

Lemma outcome_eta {A} (o : Outcome A) :
  mkOutcome (out_heap o) (out_calls o) (out_res o) = o.
Proof. destruct o; reflexivity. Qed.

Lemma bind_pure {A B} (m : M A) (f : A -> M B) h x :
  m h = mkOutcome h [] (inr x) -> bind m f h = f x h.
Proof. intros E. rewrite (bind_ok _ _ _ _ _ _ E). apply outcome_eta. Qed.

Lemma deref_ok h l t : h !! l = Some t -> deref l h = mkOutcome h [] (inr t).
Proof. intros E. unfold deref. rewrite E. reflexivity. Qed.

Lemma refers_app h extra ls ts : refers h ls ts -> refers (h ++ extra) ls ts.
Proof.
  unfold refers. induction 1; constructor; auto.
  apply lookup_app_l_Some. assumption.
Qed.

Lemma mapM_deref_ok h ls ts :
  refers h ls ts -> mapM deref ls h = mkOutcome h [] (inr ts).
Proof.
  induction 1 as [|l t ls ts Hl _ IH]; [reflexivity|].
  cbn [mapM]. rewrite (bind_pure _ _ _ _ (deref_ok _ _ _ Hl)).
  rewrite (bind_pure _ _ _ _ IH). reflexivity.
Qed.

Lemma cpu_run h l t :
  h !! l = Some t ->
  cpu l h =
    if String.eqb (dev_type (device t)) "cpu"
    then mkOutcome h [CallCpu l l] (inr l)
    else mkOutcome (h ++ [on_device cpu_device t]) [CallCpu l (length h)]
                   (inr (length h)).
Proof.
  intros Hl. unfold cpu. rewrite (bind_pure _ _ _ _ (deref_ok _ _ _ Hl)).
  destruct (String.eqb _ _); reflexivity.
Qed.

Lemma to_run h l t d :
  h !! l = Some t ->
  to l d h =
    if bool_decide (device t = d)
    then mkOutcome h [CallTo l d l] (inr l)
    else mkOutcome (h ++ [on_device d t]) [CallTo l d (length h)]
                   (inr (length h)).
Proof.
  intros Hl. unfold to. rewrite (bind_pure _ _ _ _ (deref_ok _ _ _ Hl)).
  destruct (bool_decide _); reflexivity.
Qed.

Lemma torch_call_run h op args ts :
  refers h args ts ->
  torch_call op args h =
    match dispatch op ts with
    | inl e => mkOutcome h [CallNative op args] (inl (TorchError e))
    | inr r => mkOutcome (h ++ [r]) [CallNative op args] (inr (length h))
    end.
Proof.
  intros Hr. unfold torch_call.
  rewrite (bind_pure _ _ _ _ (mapM_deref_ok _ _ _ Hr)).
  unfold bind, record; cbn. destruct (dispatch op ts); reflexivity.
Qed.

(** [.cpu()] on every operand, in order: the store only grows, and the
    results refer to the operands' CPU forms. *)
Lemma mapM_cpu_run ls : forall h ts,
  refers h ls ts ->
  exists extra ls',
    mapM cpu ls h = mkOutcome (h ++ extra) (zip_with CallCpu ls ls') (inr ls')
    /\ refers (h ++ extra) ls' (map to_cpu ts)
    /\ length ls' = length ls.
Proof.
  induction ls as [|l ls IH]; intros h ts Hr.
  - inversion Hr; subst. exists [], []. rewrite app_nil_r.
    repeat split; constructor.
  - inversion Hr as [|? t ? ts' Hl Hrest]; subst.
    pose proof (cpu_run _ _ _ Hl) as Hc.
    cbn [mapM map]. unfold to_cpu at 1.
    destruct (String.eqb (dev_type (device t)) "cpu") eqn:Ecpu.
    + destruct (IH h ts' Hrest) as (extra & ls' & Hm & Hr' & Hlen).
      exists extra, (l :: ls').
      rewrite (bind_ok _ _ _ _ _ _ Hc), (bind_ok _ _ _ _ _ _ Hm). cbn.
      rewrite app_nil_r. split; [reflexivity|]. split; [|congruence].
      constructor; [|assumption]. apply lookup_app_l_Some. assumption.
    + destruct (IH (h ++ [on_device cpu_device t]) ts'
                  (refers_app _ _ _ _ Hrest)) as (extra & ls' & Hm & Hr' & Hlen).
      exists (on_device cpu_device t :: extra), (length h :: ls').
      rewrite (bind_ok _ _ _ _ _ _ Hc), (bind_ok _ _ _ _ _ _ Hm). cbn.
      rewrite <- app_assoc in *. cbn in *.
      rewrite app_nil_r. split; [reflexivity|]. split; [|congruence].
      constructor; [|assumption]. apply list_lookup_middle. reflexivity.
Qed.

End Run.

(** ** The common shape of the four functions *)

Section Wrapper.
Context {L : Library}.

Lemma deref_none h l : h !! l = None -> deref l h = mkOutcome h [] (inl (InvalidRef l)).
Proof. intros E. unfold deref. rewrite E. reflexivity. Qed.

Lemma mapM_pair {A B C} (f : A -> M B) (k : list B -> M C) a b h :
  bind (mapM f [a; b]) k h = bind (f a) (fun x => bind (f b) (fun y => k [x; y])) h.
Proof.
  cbn [mapM]. unfold bind, ret.
  destruct (f a h) as [h1 c1 [e|x]]; cbn; [reflexivity|].
  destruct (f b h1) as [h2 c2 [e|y]]; cbn; rewrite ?app_nil_r; [reflexivity|].
  rewrite <- app_assoc. reflexivity.
Qed.

Lemma binary_shape op a b h :
  bind (deref a) (fun ta =>
  bind (deref b) (fun tb =>
  if _needs_cpu_fallback (device ta) [ta; tb] then
    bind (cpu a) (fun a' =>
    bind (cpu b) (fun b' =>
    bind (torch_call op [a'; b']) (fun result =>
    to result (device ta))))
  else torch_call op [a; b])) h
  = wrapper op a [b] h.
Proof.
  unfold wrapper. rewrite mapM_pair.
  destruct (h !! a) as [ta|] eqn:Ea.
  2:{ rewrite !(bind_raise _ _ _ _ _ _ (deref_none _ _ Ea)). reflexivity. }
  rewrite !(bind_pure _ _ _ _ (deref_ok _ _ _ Ea)).
  destruct (h !! b) as [tb|] eqn:Eb.
  2:{ rewrite !(bind_raise _ _ _ _ _ _ (deref_none _ _ Eb)). reflexivity. }
  rewrite !(bind_pure _ _ _ _ (deref_ok _ _ _ Eb)).
  rewrite (bind_pure _ _ _ _ (deref_ok _ _ _ Ea)).
  destruct (_needs_cpu_fallback _ _); [|reflexivity].
  rewrite mapM_pair. reflexivity.
Qed.

Lemma mps_matmul_shape a b h : mps_matmul a b h = wrapper Matmul a [b] h.
Proof. apply binary_shape. Qed.

Lemma mps_bmm_shape a b h : mps_bmm a b h = wrapper Bmm a [b] h.
Proof. apply binary_shape. Qed.

Lemma mps_mm_shape a b h : mps_mm a b h = wrapper Mm a [b] h.
Proof. apply binary_shape. Qed.

Lemma mps_einsum_shape equation first rest h :
  mps_einsum equation (first :: rest) h = wrapper (Einsum equation) first rest h.
Proof. reflexivity. Qed.

(** *** The capability check *)

Lemma listed_complex (d : DType) :
  d ∈ [complex64; complex128] <-> d = complex64 \/ d = complex128.
Proof. rewrite !elem_of_cons, elem_of_nil. tauto. Qed.

Lemma any_listed_complex_spec (tensors : list Tensor) :
  any_listed_complex tensors = true <->
  exists t, t ∈ tensors /\ (dtype t = complex64 \/ dtype t = complex128).
Proof.
  induction tensors as [|t rest IH]; cbn.
  - split; [discriminate|]. intros (t & Hin & _). inversion Hin.
  - destruct (bool_decide_reflect (dtype t ∈ [complex64; complex128])) as [Hc|Hc];
      rewrite listed_complex in Hc.
    + split; [intros _|reflexivity]. exists t. split; [left|assumption].
    + rewrite IH. split.
      * intros (t' & Hin & Hd). exists t'. split; [right; assumption|assumption].
      * intros (t' & Hin & Hd). inversion Hin; subst; [tauto|].
        exists t'. split; assumption.
Qed.

Lemma needs_cpu_fallback_true (d : Device) (tensors : list Tensor) :
  _needs_cpu_fallback d tensors = true <->
  dev_type d = "mps" /\
  exists t, t ∈ tensors /\ (dtype t = complex64 \/ dtype t = complex128).
Proof.
  unfold _needs_cpu_fallback.
  destruct (String.eqb_spec (dev_type d) "mps") as [Hd|Hd]; cbn.
  - rewrite any_listed_complex_spec. tauto.
  - split; [discriminate|tauto].
Qed.

Lemma any_listed_complex_dtypes (ts ts' : list Tensor) :
  map dtype ts = map dtype ts' -> any_listed_complex ts = any_listed_complex ts'.
Proof.
  revert ts'. induction ts as [|t ts IH]; intros [|t' ts'] E; try discriminate;
    [reflexivity|].
  cbn in *. injection E as -> E. rewrite (IH _ E). reflexivity.
Qed.

(** *** The two paths *)

Lemma dispatch_device op t ts r :
  dispatch op (t :: ts) = inr r -> device r = device t.
Proof.
  unfold dispatch.
  destruct (forallb _ _); [|discriminate].
  destruct (implemented _ _ _); [|discriminate].
  destruct (op_value _ _); [discriminate|].
  intros [= <-]. reflexivity.
Qed.

Lemma dispatch_value op ts r :
  dispatch op ts = inr r ->
  op_value (dev_type (device r)) op (map value ts) = inr (value r).
Proof.
  unfold dispatch. destruct ts as [|t ts]; [discriminate|].
  destruct (forallb _ _); [|discriminate].
  destruct (implemented _ _ _); [|discriminate].
  destruct (op_value _ _ _) as [|[dt x]] eqn:Ev; [discriminate|].
  intros [= <-]. exact Ev.
Qed.

Lemma value_to_cpu (t : Tensor) : value (to_cpu t) = value t.
Proof. unfold to_cpu. destruct (String.eqb _ _); reflexivity. Qed.

Lemma map_value_to_cpu (ts : list Tensor) : map value (map to_cpu ts) = map value ts.
Proof. rewrite map_map. apply map_ext. intros t. apply value_to_cpu. Qed.

Lemma wrapper_native op first rest h t0 trest :
  refers h (first :: rest) (t0 :: trest) ->
  _needs_cpu_fallback (device t0) (t0 :: trest) = false ->
  wrapper op first rest h = torch_call op (first :: rest) h.
Proof.
  intros Hr Hn. unfold wrapper.
  rewrite (bind_pure _ _ _ _ (mapM_deref_ok _ _ _ Hr)).
  inversion Hr; subst.
  rewrite (bind_pure _ _ _ _ (deref_ok _ _ _ ltac:(eassumption))).
  rewrite Hn. reflexivity.
Qed.

Lemma wrapper_fallback op first rest h t0 trest :
  refers h (first :: rest) (t0 :: trest) ->
  _needs_cpu_fallback (device t0) (t0 :: trest) = true ->
  exists extra ls',
    refers (h ++ extra) ls' (map to_cpu (t0 :: trest)) /\
    length ls' = S (length rest) /\
    wrapper op first rest h =
      match dispatch op (map to_cpu (t0 :: trest)) with
      | inl e =>
          mkOutcome (h ++ extra)
            (zip_with CallCpu (first :: rest) ls' ++ [CallNative op ls'])
            (inl (TorchError e))
      | inr r =>
          mkOutcome (h ++ extra ++ [r; on_device (device t0) r])
            (zip_with CallCpu (first :: rest) ls' ++
             [CallNative op ls';
              CallTo (length (h ++ extra)) (device t0) (S (length (h ++ extra)))])
            (inr (S (length (h ++ extra))))
      end.
Proof.
  intros Hr Hn.
  destruct (mapM_cpu_run _ _ _ Hr) as (extra & ls' & Hm & Hr' & Hlen).
  exists extra, ls'. split; [assumption|]. split; [assumption|].
  unfold wrapper.
  rewrite (bind_pure _ _ _ _ (mapM_deref_ok _ _ _ Hr)).
  inversion Hr; subst.
  rewrite (bind_pure _ _ _ _ (deref_ok _ _ _ ltac:(eassumption))).
  rewrite Hn, (bind_ok _ _ _ _ _ _ Hm).
  pose proof (torch_call_run _ op _ _ Hr') as Ht.
  destruct (dispatch op (map to_cpu (t0 :: trest))) as [e|r] eqn:Ed.
  - rewrite (bind_raise _ _ _ _ _ _ Ht). reflexivity.
  - rewrite (bind_ok _ _ _ _ _ _ Ht).
    assert (Hlk : ((h ++ extra) ++ [r]) !! length (h ++ extra) = Some r)
      by (apply list_lookup_middle; reflexivity).
    rewrite (to_run _ _ _ (device t0) Hlk).
    apply needs_cpu_fallback_true in Hn as [Hmps _].
    cbn [map] in Ed. apply dispatch_device in Ed.
    unfold to_cpu in Ed. rewrite Hmps in Ed. cbn in Ed.
    rewrite bool_decide_false.
    2:{ rewrite Ed. intros Heq. rewrite <- Heq in Hmps. discriminate. }
    cbn.
    rewrite <- !app_assoc. cbn.
    replace (length (h ++ extra ++ [r])) with (S (length (h ++ extra)))
      by (rewrite !length_app; cbn; lia).
    reflexivity.
Qed.


(** *** Calls to the exported functions *)

Lemma invoke_shape c first rest h :
  operands c = first :: rest ->
  invoke c h = wrapper (operator c) first rest h.
Proof.
  destruct c; cbn; intros E; simplify_eq;
    auto using mps_matmul_shape, mps_bmm_shape, mps_mm_shape, mps_einsum_shape.
Qed.

Lemma native_calls op args ts h :
  refers h args ts -> out_calls (torch_call op args h) = [CallNative op args].
Proof.
  intros Hr. rewrite (torch_call_run _ _ _ _ Hr).
  destruct (dispatch op ts); reflexivity.
Qed.

Lemma took_fallback_wrapper op first rest h t0 trest :
  refers h (first :: rest) (t0 :: trest) ->
  took_fallback (out_calls (wrapper op first rest h)) =
  _needs_cpu_fallback (device t0) (t0 :: trest).
Proof.
  intros Hr.
  destruct (_needs_cpu_fallback (device t0) (t0 :: trest)) eqn:Hn.
  - destruct (wrapper_fallback op _ _ _ _ _ Hr Hn) as (extra & ls' & _ & Hlen & ->).
    destruct ls' as [|l' ls']; [discriminate|].
    destruct (dispatch _ _); reflexivity.
  - rewrite (wrapper_native op _ _ _ _ _ Hr Hn), (native_calls _ _ _ _ Hr).
    reflexivity.
Qed.

(** *** Which exceptions can come out *)

Lemma nve_bind {A B} (m : M A) (f : A -> M B) :
  no_value_error m -> (forall x, no_value_error (f x)) -> no_value_error (bind m f).
Proof.
  intros Hm Hf h msg. unfold bind.
  specialize (Hm h msg).
  destruct (m h) as [h1 c1 [e|x]]; cbn in *; [|apply Hf].
  intros [= ->]. apply Hm. reflexivity.
Qed.

Lemma nve_ret {A} (x : A) : no_value_error (ret x).
Proof. intros h msg; discriminate. Qed.

Lemma nve_deref l : no_value_error (deref l).
Proof. intros h msg. unfold deref. destruct (h !! l); discriminate. Qed.

Lemma nve_alloc t : no_value_error (alloc t).
Proof. intros h msg; discriminate. Qed.

Lemma nve_record c : no_value_error (record c).
Proof. intros h msg; discriminate. Qed.

Lemma nve_mapM {A B} (f : A -> M B) l :
  (forall x, no_value_error (f x)) -> no_value_error (mapM f l).
Proof.
  intros Hf. induction l; cbn [mapM]; auto using nve_ret.
  apply nve_bind; [apply Hf|]. intros y.
  apply nve_bind; [assumption|]. intros ys. apply nve_ret.
Qed.

Create HintDb nve discriminated.
#[local] Hint Resolve nve_ret nve_deref nve_alloc nve_record nve_mapM : nve.

Ltac nve_step :=
  apply nve_bind; [solve [auto with nve]|intros ?].

Lemma nve_cpu l : no_value_error (cpu l).
Proof.
  unfold cpu. nve_step.
  apply nve_bind; [destruct (String.eqb _ _); auto with nve|intros r].
  nve_step. apply nve_ret.
Qed.

Lemma nve_to l d : no_value_error (to l d).
Proof.
  unfold to. nve_step.
  apply nve_bind; [destruct (bool_decide _); auto with nve|intros r].
  nve_step. apply nve_ret.
Qed.

Lemma nve_torch_call op args : no_value_error (torch_call op args).
Proof.
  unfold torch_call. do 2 nve_step.
  destruct (dispatch op _); [|apply nve_alloc].
  intros h msg; discriminate.
Qed.

#[local] Hint Resolve nve_cpu nve_to nve_torch_call : nve.

Lemma nve_wrapper op first rest : no_value_error (wrapper op first rest).
Proof.
  unfold wrapper. do 2 nve_step.
  destruct (_needs_cpu_fallback _ _); [|apply nve_torch_call].
  do 2 nve_step. apply nve_to.
Qed.

End Wrapper.

(** ** The claims *)

Section Claims.
Context {L : Library}.

Lemma no_operands_is_einsum c h :
  refers h (operands c) [] -> exists equation, c = CallEinsum equation [].
Proof.
  intros Hr. inversion Hr as [Eo|]. destruct c; try discriminate.
  cbn in Eo. subst. eauto.
Qed.

Lemma invoke_branches c h t0 trest :
  refers h (operands c) (t0 :: trest) ->
  invoke c h =
    (if _needs_cpu_fallback (device t0) (t0 :: trest)
     then fallback c (device t0) else native c) h.
Proof.
  intros Hr. inversion Hr as [|first ? rest ? Hl Hrest Eo]; subst.
  symmetry in Eo. rewrite (invoke_shape _ _ _ _ Eo).
  unfold wrapper, fallback, native. rewrite Eo in Hr |- *.
  rewrite (bind_pure _ _ _ _ (mapM_deref_ok _ _ _ Hr)).
  rewrite (bind_pure _ _ _ _ (deref_ok _ _ _ Hl)).
  destruct (_needs_cpu_fallback _ _); reflexivity.
Qed.

Lemma took_fallback_invoke c h t0 trest :
  refers h (operands c) (t0 :: trest) ->
  took_fallback (out_calls (invoke c h)) =
  _needs_cpu_fallback (device t0) (t0 :: trest).
Proof.
  intros Hr. inversion Hr as [|first ? rest ? Hl Hrest Eo]; subst.
  symmetry in Eo. rewrite (invoke_shape _ _ _ _ Eo).
  rewrite Eo in Hr. apply took_fallback_wrapper. assumption.
Qed.

Lemma needs_cpu_fallback_dtypes (d d' : Device) (ts ts' : list Tensor) :
  dev_type d = dev_type d' -> map dtype ts = map dtype ts' ->
  _needs_cpu_fallback d ts = _needs_cpu_fallback d' ts'.
Proof.
  intros Hd Ht. unfold _needs_cpu_fallback. rewrite Hd.
  destruct (negb _); [reflexivity|]. apply any_listed_complex_dtypes, Ht.
Qed.

Lemma dispatch_inv op t ts r :
  dispatch op (t :: ts) = inr r ->
  exists v, op_value (dev_type (device t)) op (map value (t :: ts)) = inr v /\
            r = mkTensor (device t) (fst v) (snd v).
Proof.
  unfold dispatch.
  destruct (forallb _ _); [|discriminate].
  destruct (implemented _ _ _); [|discriminate].
  destruct (op_value _ _) as [|v]; [discriminate|].
  intros [= <-]. eauto.
Qed.

Lemma lookup_second_last (l : list Tensor) r x :
  (l ++ [r; x]) !! S (length l) = Some x.
Proof.
  change (l ++ [r; x]) with (l ++ [r] ++ [x]). rewrite app_assoc.
  apply list_lookup_middle. rewrite length_app. cbn. lia.
Qed.

Lemma invoke_native c h t0 trest :
  refers h (operands c) (t0 :: trest) ->
  _needs_cpu_fallback (device t0) (t0 :: trest) = false ->
  invoke c h = native c h /\
  native c h =
    match dispatch (operator c) (t0 :: trest) with
    | inl e => mkOutcome h [CallNative (operator c) (operands c)] (inl (TorchError e))
    | inr r => mkOutcome (h ++ [r]) [CallNative (operator c) (operands c)]
                         (inr (length h))
    end.
Proof.
  intros Hr Hn. rewrite (invoke_branches _ _ _ _ Hr), Hn.
  split; [reflexivity|]. apply torch_call_run, Hr.
Qed.

Lemma invoke_fallback c h t0 trest :
  refers h (operands c) (t0 :: trest) ->
  _needs_cpu_fallback (device t0) (t0 :: trest) = true ->
  exists extra ls',
    refers (h ++ extra) ls' (map to_cpu (t0 :: trest)) /\
    length ls' = length (operands c) /\
    invoke c h =
      match dispatch (operator c) (map to_cpu (t0 :: trest)) with
      | inl e =>
          mkOutcome (h ++ extra)
            (zip_with CallCpu (operands c) ls' ++ [CallNative (operator c) ls'])
            (inl (TorchError e))
      | inr r =>
          mkOutcome (h ++ extra ++ [r; on_device (device t0) r])
            (zip_with CallCpu (operands c) ls' ++
             [CallNative (operator c) ls';
              CallTo (length (h ++ extra)) (device t0) (S (length (h ++ extra)))])
            (inr (S (length (h ++ extra))))
      end.
Proof.
  intros Hr Hn. inversion Hr as [|first ? rest ? Hl Hrest Eo]; subst.
  symmetry in Eo. rewrite (invoke_shape _ _ _ _ Eo). rewrite Eo in Hr.
  exact (wrapper_fallback (operator c) _ _ _ _ _ Hr Hn).
Qed.

Lemma to_cpu_on_cpu (t : Tensor) : dev_type (device (to_cpu t)) = "cpu".
Proof.
  unfold to_cpu. destruct (String.eqb_spec (dev_type (device t)) "cpu"); auto.
Qed.

Lemma dtype_to_cpu (t : Tensor) : dtype (to_cpu t) = dtype t.
Proof. unfold to_cpu. destruct (String.eqb _ _); reflexivity. Qed.

Lemma to_cpu_canonical (t : Tensor) :
  cpu_canonical t -> device (to_cpu t) = cpu_device.
Proof.
  unfold cpu_canonical, to_cpu.
  destruct (String.eqb_spec (dev_type (device t)) "cpu"); auto.
Qed.

(** On the fallback path the CPU call goes through whenever the CPU has
    the kernel and the operator is defined on the operands' contents. *)
Lemma dispatch_on_cpu op t0 trest v :
  Forall cpu_canonical (t0 :: trest) ->
  implemented "cpu" op (map dtype (t0 :: trest)) = true ->
  op_value "cpu" op (map value (t0 :: trest)) = inr v ->
  dispatch op (map to_cpu (t0 :: trest)) = inr (mkTensor cpu_device (fst v) (snd v)).
Proof.
  intros Hc Hi Hv. cbn [map]. unfold dispatch.
  assert (H0 : device (to_cpu t0) = cpu_device)
    by (apply to_cpu_canonical; inversion Hc; assumption).
  rewrite H0.
  rewrite (proj2 (forallb_forall _ _)).
  2:{ intros t' Hin. apply bool_decide_eq_true.
      change (to_cpu t0 :: map to_cpu trest) with (map to_cpu (t0 :: trest)) in Hin.
      apply in_map_iff in Hin as (t & <- & Hin).
      apply to_cpu_canonical. rewrite Forall_forall in Hc. apply Hc.
      apply list_elem_of_In. assumption. }
  change (to_cpu t0 :: map to_cpu trest) with (map to_cpu (t0 :: trest)).
  cbn [dev_type cpu_device]. rewrite map_value_to_cpu, Hv.
  replace (map dtype (map to_cpu (t0 :: trest))) with (map dtype (t0 :: trest)).
  2:{ rewrite map_map. apply map_ext. intros t. symmetry. apply dtype_to_cpu. }
  rewrite Hi. reflexivity.
Qed.

(** C3. [_needs_cpu_fallback] is true exactly when the device type is
    'mps' and some tensor has dtype complex64 or complex128; it depends on
    the device type and the dtypes only; and each of the four wrappers runs
    its fallback path when the check, applied to the first operand's device
    and all operands, is true, and the native call otherwise. *)
Theorem capability_check_decides_dispatch :
  (forall (d : Device) (tensors : list Tensor),
      _needs_cpu_fallback d tensors = true <->
      dev_type d = "mps" /\
      exists t, t ∈ tensors /\ (dtype t = complex64 \/ dtype t = complex128))
  /\ (forall (d d' : Device) (ts ts' : list Tensor),
        dev_type d = dev_type d' -> map dtype ts = map dtype ts' ->
        _needs_cpu_fallback d ts = _needs_cpu_fallback d' ts')
  /\ (forall c h t0 trest,
        refers h (operands c) (t0 :: trest) ->
        invoke c h =
          (if _needs_cpu_fallback (device t0) (t0 :: trest)
           then fallback c (device t0) else native c) h).
Proof.
  split; [exact needs_cpu_fallback_true|].
  split; [exact needs_cpu_fallback_dtypes|exact invoke_branches].
Qed.

(** C5. When the first operand's device type is not 'mps', the wrapper is
    the native call on the given tensors: the only library call made is
    that one, on the references it was given, and nothing but its result
    is added to the store. *)
Theorem non_mps_runs_native_directly c h t0 trest :
  refers h (operands c) (t0 :: trest) ->
  dev_type (device t0) <> "mps" ->
  invoke c h = native c h
  /\ out_calls (invoke c h) = [CallNative (operator c) (operands c)]
  /\ (out_heap (invoke c h) = h \/
      exists r, out_heap (invoke c h) = h ++ [r] /\
                out_res (invoke c h) = inr (length h)).
Proof.
  intros Hr Hd.
  assert (Hn : _needs_cpu_fallback (device t0) (t0 :: trest) = false).
  { unfold _needs_cpu_fallback.
    destruct (String.eqb_spec (dev_type (device t0)) "mps"); [contradiction|reflexivity]. }
  rewrite (invoke_branches _ _ _ _ Hr), Hn.
  split; [reflexivity|]. unfold native.
  rewrite (torch_call_run _ _ _ _ Hr).
  destruct (dispatch _ _) as [e|r]; cbn; split; auto.
  right. exists r. auto.
Qed.

(** C9. [contract] is [mps_einsum]: the same function, hence the same
    result or the same exception on every equation and operand list. *)
Theorem contract_is_mps_einsum :
  contract = mps_einsum
  /\ forall equation operands h,
       contract equation operands h = mps_einsum equation operands h.
Proof. split; reflexivity. Qed.


(** C1, as amended.  On the native branch a wrapper is the native
    operation applied directly: the same result or the same exception.
    On the fallback branch it returns, on the first operand's device, the
    tensor that the operation computes on the CPU from the CPU forms of
    the inputs; it does return it whenever the CPU has the kernel; and
    where the native operation applied directly returns as well, the
    wrapper returns an equal tensor provided the CPU kernel computes the
    value that the device's kernel computed. *)
Theorem wrappers_agree_with_native c h t0 trest :
  refers h (operands c) (t0 :: trest) ->
  (took_fallback (out_calls (invoke c h)) = false -> invoke c h = native c h)
  /\ (took_fallback (out_calls (invoke c h)) = true ->
      (forall h' calls r,
          invoke c h = mkOutcome h' calls (inr r) ->
          exists tcpu,
            dispatch (operator c) (map to_cpu (t0 :: trest)) = inr tcpu /\
            h' !! r = Some (on_device (device t0) tcpu) /\
            op_value "cpu" (operator c) (map value (t0 :: trest)) =
              inr (value tcpu))
      /\ (Forall cpu_canonical (t0 :: trest) ->
          implemented "cpu" (operator c) (map dtype (t0 :: trest)) = true ->
          forall v,
            op_value "cpu" (operator c) (map value (t0 :: trest)) = inr v ->
            exists h' calls r,
              invoke c h = mkOutcome h' calls (inr r) /\
              h' !! r = Some (mkTensor (device t0) (fst v) (snd v)))
      /\ (Forall cpu_canonical (t0 :: trest) ->
          implemented "cpu" (operator c) (map dtype (t0 :: trest)) = true ->
          forall h1 calls1 r1 t1,
            native c h = mkOutcome h1 calls1 (inr r1) ->
            h1 !! r1 = Some t1 ->
            op_value "cpu" (operator c) (map value (t0 :: trest)) =
              inr (value t1) ->
            exists h' calls r,
              invoke c h = mkOutcome h' calls (inr r) /\ h' !! r = Some t1)).
Proof.
  intros Hr. rewrite (took_fallback_invoke _ _ _ _ Hr).
  destruct (_needs_cpu_fallback (device t0) (t0 :: trest)) eqn:Hn.
  2:{ split; [intros _; apply (invoke_native _ _ _ _ Hr Hn)|discriminate]. }
  split; [discriminate|]. intros _.
  destruct (invoke_fallback _ _ _ _ Hr Hn) as (extra & ls' & _ & _ & Hrun).
  pose proof (proj1 (proj1 (needs_cpu_fallback_true _ _) Hn)) as Hmps.
  assert (Hret : Forall cpu_canonical (t0 :: trest) ->
            implemented "cpu" (operator c) (map dtype (t0 :: trest)) = true ->
            forall v,
              op_value "cpu" (operator c) (map value (t0 :: trest)) = inr v ->
              exists h' calls r,
                invoke c h = mkOutcome h' calls (inr r) /\
                h' !! r = Some (mkTensor (device t0) (fst v) (snd v))).
  { intros Hc Hi v Hv. rewrite Hrun, (dispatch_on_cpu _ _ _ _ Hc Hi Hv).
    do 3 eexists. split; [reflexivity|].
    rewrite app_assoc. apply lookup_second_last. }
  split; [|split; [exact Hret|]].
  - rewrite Hrun.
    destruct (dispatch (operator c) (map to_cpu (t0 :: trest))) as [e|tcpu] eqn:Ed;
      [discriminate|].
    intros h' calls r [= <- _ <-]. exists tcpu. split; [reflexivity|].
    split; [rewrite app_assoc; apply lookup_second_last|].
    pose proof (dispatch_value _ _ _ Ed) as Hv.
    cbn [map] in Ed. apply dispatch_device in Ed.
    unfold to_cpu in Ed. rewrite Hmps in Ed. cbn in Ed.
    rewrite Ed, map_value_to_cpu in Hv. exact Hv.
  - intros Hc Hi h1 calls1 r1 t1 Hnat Hl1 Hv.
    destruct (Hret Hc Hi _ Hv) as (h' & calls & r & Hinv & Hl).
    exists h', calls, r. split; [exact Hinv|].
    etransitivity; [exact Hl|]. f_equal.
    unfold native in Hnat. rewrite (torch_call_run _ _ _ _ Hr) in Hnat.
    destruct (dispatch (operator c) (t0 :: trest)) as [|rn] eqn:Edn;
      [discriminate|].
    injection Hnat as <- _ <-.
    assert (Hrn : Some rn = Some t1).
    { etransitivity; [symmetry; apply list_lookup_middle; reflexivity|exact Hl1]. }
    injection Hrn as <-.
    apply dispatch_device in Edn. rewrite <- Edn.
    destruct rn; reflexivity.
Qed.

(** C2. On the fallback path the operator runs on the CPU, and either it
    raises there, or the wrapper returns the copy of its result on the
    device of the first operand, which is not the CPU. *)
Theorem fallback_result_on_original_device c h t0 trest :
  refers h (operands c) (t0 :: trest) ->
  took_fallback (out_calls (invoke c h)) = true ->
  (exists le,
      out_res (invoke c h) = inl (TorchError le) /\
      dispatch (operator c) (map to_cpu (t0 :: trest)) = inl le)
  \/ (exists r t tcpu,
        out_res (invoke c h) = inr r /\
        out_heap (invoke c h) !! r = Some t /\
        device t = device t0 /\
        dev_type (device t) <> "cpu" /\
        dispatch (operator c) (map to_cpu (t0 :: trest)) = inr tcpu /\
        device tcpu = cpu_device /\
        t = on_device (device t0) tcpu).
Proof.
  intros Hr Htf. rewrite (took_fallback_invoke _ _ _ _ Hr) in Htf.
  destruct (invoke_fallback _ _ _ _ Hr Htf) as (extra & ls' & _ & _ & ->).
  apply needs_cpu_fallback_true in Htf as [Hmps _].
  destruct (dispatch (operator c) (map to_cpu (t0 :: trest))) as [le|tcpu] eqn:Ed;
    cbn [out_res out_heap].
  - left. eauto.
  - right. exists (S (length (h ++ extra))), (on_device (device t0) tcpu), tcpu.
    split; [reflexivity|].
    split; [rewrite app_assoc; apply lookup_second_last|].
    split; [reflexivity|]. split; [cbn; rewrite Hmps; discriminate|].
    split; [reflexivity|]. split; [|reflexivity].
    cbn [map] in Ed. apply dispatch_device in Ed. rewrite Ed.
    unfold to_cpu. rewrite Hmps. reflexivity.
Qed.

(** C6. On the fallback path [.cpu()] is called on every operand, in
    order, before the operator; the operator is called on the results of
    those calls; and each of these, in the store the call leaves, is a
    tensor on the CPU with the dtype and the contents of its operand,
    complex or not. *)
Theorem fallback_moves_every_operand c h ts :
  refers h (operands c) ts ->
  took_fallback (out_calls (invoke c h)) = true ->
  exists args later,
    out_calls (invoke c h) =
      zip_with CallCpu (operands c) args ++
      CallNative (operator c) args :: later
    /\ length args = length (operands c)
    /\ Forall (fun call => is_cpu_call call = false) later
    /\ Forall2 (fun l t =>
                  exists t', out_heap (invoke c h) !! l = Some t' /\
                             dev_type (device t') = "cpu" /\
                             value t' = value t) args ts.
Proof.
  intros Hr Htf. destruct ts as [|t0 trest].
  { destruct (no_operands_is_einsum _ _ Hr) as [equation ->]. discriminate. }
  rewrite (took_fallback_invoke _ _ _ _ Hr) in Htf.
  destruct (invoke_fallback _ _ _ _ Hr Htf) as (extra & ls' & Hr' & Hlen & ->).
  assert (Hall : forall later_objs,
            Forall2 (fun l t =>
                  exists t', (h ++ extra ++ later_objs) !! l = Some t' /\
                             dev_type (device t') = "cpu" /\
                             value t' = value t) ls' (t0 :: trest)).
  { intros later_objs.
    apply (refers_app _ later_objs) in Hr'. rewrite <- app_assoc in Hr'.
    unfold refers in Hr'. apply Forall2_fmap_r in Hr'.
    eapply Forall2_impl; [exact Hr'|]. cbn. intros l t Hl.
    exists (to_cpu t). auto using to_cpu_on_cpu, value_to_cpu. }
  destruct (dispatch _ _); cbn [out_calls out_heap].
  - exists ls', []. specialize (Hall []). rewrite app_nil_r in Hall.
    repeat split; auto.
  - eexists ls', [_]. repeat split; auto.
Qed.

(** C8. The device given to the capability check is that of the first
    operand: the decision is the check on that device and on all
    operands, and two calls that agree on the first operand's device and
    on the operands' dtypes take the same path, wherever the other
    operands are. *)
Theorem dispatch_reads_first_device_only c h h' t0 trest t0' trest' :
  refers h (operands c) (t0 :: trest) ->
  refers h' (operands c) (t0' :: trest') ->
  device t0 = device t0' ->
  map dtype (t0 :: trest) = map dtype (t0' :: trest') ->
  took_fallback (out_calls (invoke c h)) =
    _needs_cpu_fallback (device t0) (t0 :: trest)
  /\ took_fallback (out_calls (invoke c h)) =
     took_fallback (out_calls (invoke c h')).
Proof.
  intros Hr Hr' Hd Ht.
  rewrite (took_fallback_invoke _ _ _ _ Hr), (took_fallback_invoke _ _ _ _ Hr').
  split; [reflexivity|].
  apply needs_cpu_fallback_dtypes; [rewrite Hd; reflexivity|assumption].
Qed.

(** C10. A wrapper call changes no object that existed before it: the
    store only grows, so every input tensor keeps its values, dtype and
    device, and a returned tensor is an object that did not exist before
    the call. *)
Theorem wrappers_do_not_mutate_inputs c h ts :
  refers h (operands c) ts ->
  (exists extra, out_heap (invoke c h) = h ++ extra)
  /\ (forall l t, h !! l = Some t -> out_heap (invoke c h) !! l = Some t)
  /\ refers (out_heap (invoke c h)) (operands c) ts
  /\ (forall r, out_res (invoke c h) = inr r ->
        length h <= r < length (out_heap (invoke c h))).
Proof.
  intros Hr.
  assert (Hgrow : exists extra, out_heap (invoke c h) = h ++ extra /\
            forall r, out_res (invoke c h) = inr r ->
                      length h <= r < length (h ++ extra)).
  { destruct ts as [|t0 trest].
    { destruct (no_operands_is_einsum _ _ Hr) as [equation ->].
      exists []. cbn. rewrite app_nil_r. split; [reflexivity|discriminate]. }
    destruct (_needs_cpu_fallback (device t0) (t0 :: trest)) eqn:Hn.
    - destruct (invoke_fallback _ _ _ _ Hr Hn) as (extra & ls' & _ & _ & ->).
      destruct (dispatch _ _) as [e|r0]; cbn [out_heap out_res].
      + exists extra. split; [reflexivity|discriminate].
      + eexists. split; [reflexivity|]. intros r [= <-].
        rewrite !length_app. cbn. lia.
    - destruct (invoke_native _ _ _ _ Hr Hn) as [-> ->].
      destruct (dispatch _ _) as [e|r0]; cbn [out_heap out_res].
      + exists []. rewrite app_nil_r. split; [reflexivity|discriminate].
      + eexists. split; [reflexivity|]. intros r [= <-].
        rewrite !length_app. cbn. lia. }
  destruct Hgrow as (extra & -> & Hfresh).
  split; [eauto|]. split; [|split; [|assumption]].
  - intros l t Hl. apply lookup_app_l_Some. assumption.
  - apply refers_app. assumption.
Qed.

End Claims.

(** ** The module on concrete tensors *)

Section Runs.
Import RefTorch.

(** A complex dtype outside the list of [_needs_cpu_fallback] is not
    caught by the check, whatever the library. *)
Lemma unlisted_complex_not_rerouted `{Library} (d : Device) (ts : list Tensor) :
  Forall (fun t => dtype t = complex32) ts -> _needs_cpu_fallback d ts = false.
Proof.
  intros Hall. unfold _needs_cpu_fallback. destruct (negb _); [reflexivity|].
  induction Hall as [|t ts Ht _ IH]; [reflexivity|].
  cbn. rewrite Ht. exact IH.
Qed.

(** The two listed dtypes on an 'mps' device take the fallback path. *)
Lemma listed_complex_rerouted `{Library} c h t0 trest :
  refers h (operands c) (t0 :: trest) ->
  dev_type (device t0) = "mps" ->
  (exists t, t ∈ t0 :: trest /\ (dtype t = complex64 \/ dtype t = complex128)) ->
  took_fallback (out_calls (invoke c h)) = true.
Proof.
  intros Hr Hd Hc. rewrite (took_fallback_invoke _ _ _ _ Hr).
  apply needs_cpu_fallback_true. auto.
Qed.

(** C7. A complex32 tensor on the 'mps' device holds complex numbers, yet
    the check answers False for it: [mps_matmul] takes the native path and
    the call fails on the device. *)
Theorem complex32_on_mps_not_rerouted :
  heap0 !! 5 = Some th
  /\ is_complex (dtype th) = true
  /\ dev_type (device th) = "mps"
  /\ _needs_cpu_fallback (device th) [th; th] = false
  /\ took_fallback (out_calls (mps_matmul 5 5 heap0)) = false
  /\ mps_matmul 5 5 heap0 = torch_matmul 5 5 heap0
  /\ out_res (mps_matmul 5 5 heap0) = inl (TorchError (NotImplemented "mps" Matmul)).
Proof. repeat split. Qed.

(** The device of the second operand is not looked at: with the first
    operand on 'cuda' and a complex second operand on 'mps', the native
    path is taken (and the library rejects the mixed devices). *)
Example second_operand_on_mps_not_consulted :
  took_fallback (out_calls (mps_mm 6 1 heap0)) = false
  /\ out_res (mps_mm 6 1 heap0) = inl (TorchError DeviceMismatch).
Proof. split; reflexivity. Qed.

(** The fallback path at work: complex64 operands on 'mps', for which the
    direct call has no kernel, are multiplied on the CPU and the product
    comes back on 'mps'. *)
Example matmul_complex_on_mps :
  out_res (torch_matmul 0 1 heap0) = inl (TorchError (NotImplemented "mps" Matmul))
  /\ out_res (mps_matmul 0 1 heap0) = inr 11
  /\ out_heap (mps_matmul 0 1 heap0) !! 11 =
       Some (mkTensor mps0 complex64
               (mkArray [2; 2] [(-1, 2); (1, 3); (0, 2); (2, 0)]%Z))
  /\ out_calls (mps_matmul 0 1 heap0) =
       [CallCpu 0 8; CallCpu 1 9; CallNative Matmul [8; 9]; CallTo 10 mps0 11].
Proof. repeat split. Qed.

(** C1, as stated, fails.  The module's docstring says that MPS has no
    complex matmul, bmm or einsum; with such a device, [mps_matmul] on two
    complex64 tensors on 'mps' returns a tensor, and the native operation
    applied directly to the same tensors raises: there is no native value
    for the returned one to be equal to. *)
Lemma drop_in_fails_on_mps_complex :
  refers heap0 (operands (CallMatmul 0 1)) [ta; tb]
  /\ out_res (invoke (CallMatmul 0 1) heap0) = inr 11
  /\ out_res (native (CallMatmul 0 1) heap0) =
       inl (TorchError (NotImplemented "mps" Matmul))
  /\ ~ @drop_in ref_library.
Proof.
  assert (Hr : refers heap0 (operands (CallMatmul 0 1)) [ta; tb])
    by (repeat constructor).
  split; [exact Hr|]. split; [reflexivity|]. split; [reflexivity|].
  intros Hdrop.
  destruct (Hdrop (CallMatmul 0 1) heap0 [ta; tb] _ _ 11 _ Hr eq_refl eq_refl)
    as (h1 & calls1 & r1 & t1 & Hnat & _).
  discriminate Hnat.
Qed.

Lemma wrappers_agree_with_native_witness :
  refers heap_full (operands (CallMatmul 0 1))
         [@mkTensor full_library mps0 complex64 m1;
          @mkTensor full_library mps0 complex64 m2]
  /\ took_fallback (out_calls (@invoke full_library (CallMatmul 0 1) heap_full))
     = true
  /\ out_res (@native full_library (CallMatmul 0 1) heap_full) = inr 2
  /\ exists h' calls r,
       @invoke full_library (CallMatmul 0 1) heap_full =
         mkOutcome h' calls (inr r) /\
       h' !! r =
         Some (@mkTensor full_library mps0 complex64
                 (mkArray [2; 2] [(-1, 2); (1, 3); (0, 2); (2, 0)]%Z)).
Proof.
  assert (Hr : refers heap_full (operands (CallMatmul 0 1))
                 [@mkTensor full_library mps0 complex64 m1;
                  @mkTensor full_library mps0 complex64 m2])
    by (repeat constructor).
  split; [exact Hr|]. split; [reflexivity|]. split; [reflexivity|].
  destruct (@wrappers_agree_with_native full_library
              (CallMatmul 0 1) heap_full _ _ Hr) as [_ Hfb].
  destruct (Hfb eq_refl) as (_ & _ & Hsame).
  refine (Hsame _ _ _ _ 2 _ eq_refl eq_refl eq_refl).
  - repeat constructor; unfold cpu_canonical; cbn; intros E; discriminate E.
  - reflexivity.
Defined.

Lemma fallback_result_on_original_device_witness :
  refers heap0 (operands (CallEinsum "ij,jk->ik" [0; 1])) [ta; tb]
  /\ took_fallback (out_calls (invoke (CallEinsum "ij,jk->ik" [0; 1]) heap0)) = true
  /\ ((exists le,
         out_res (invoke (CallEinsum "ij,jk->ik" [0; 1]) heap0) = inl (TorchError le) /\
         dispatch (Einsum "ij,jk->ik") (map to_cpu [ta; tb]) = inl le)
      \/ (exists r t tcpu,
            out_res (invoke (CallEinsum "ij,jk->ik" [0; 1]) heap0) = inr r /\
            out_heap (invoke (CallEinsum "ij,jk->ik" [0; 1]) heap0) !! r = Some t /\
            device t = device ta /\
            dev_type (device t) <> "cpu" /\
            dispatch (Einsum "ij,jk->ik") (map to_cpu [ta; tb]) = inr tcpu /\
            device tcpu = cpu_device /\
            t = on_device (device ta) tcpu)).
Proof.
  assert (Hr : refers heap0 (operands (CallEinsum "ij,jk->ik" [0; 1])) [ta; tb])
    by (repeat constructor).
  split; [exact Hr|]. split; [reflexivity|].
  exact (fallback_result_on_original_device
           (CallEinsum "ij,jk->ik" [0; 1]) heap0 ta [tb] Hr eq_refl).
Defined.

Lemma non_mps_runs_native_directly_witness :
  refers heap0 (operands (CallMm 4 4)) [tr_cpu; tr_cpu]
  /\ dev_type (device tr_cpu) <> "mps"
  /\ invoke (CallMm 4 4) heap0 = native (CallMm 4 4) heap0
  /\ out_calls (invoke (CallMm 4 4) heap0) = [CallNative Mm [4; 4]].
Proof.
  assert (Hr : refers heap0 (operands (CallMm 4 4)) [tr_cpu; tr_cpu])
    by (repeat constructor).
  assert (Hd : dev_type (device tr_cpu) <> "mps") by discriminate.
  split; [exact Hr|]. split; [exact Hd|].
  destruct (non_mps_runs_native_directly (CallMm 4 4) heap0 tr_cpu [tr_cpu] Hr Hd)
    as (Hsame & Hcalls & _).
  split; [exact Hsame|exact Hcalls].
Defined.

Lemma fallback_moves_every_operand_witness :
  refers heap0 (operands (CallEinsum "ij,jk->ik" [2; 1])) [tr; tb]
  /\ took_fallback (out_calls (invoke (CallEinsum "ij,jk->ik" [2; 1]) heap0)) = true
  /\ exists args later,
       out_calls (invoke (CallEinsum "ij,jk->ik" [2; 1]) heap0) =
         zip_with CallCpu [2; 1] args ++
         CallNative (Einsum "ij,jk->ik") args :: later
       /\ length args = 2
       /\ Forall (fun call => is_cpu_call call = false) later
       /\ Forall2 (fun l t =>
                     exists t',
                       out_heap (invoke (CallEinsum "ij,jk->ik" [2; 1]) heap0) !! l
                         = Some t' /\
                       dev_type (device t') = "cpu" /\
                       value t' = value t) args [tr; tb].
Proof.
  assert (Hr : refers heap0 (operands (CallEinsum "ij,jk->ik" [2; 1])) [tr; tb])
    by (repeat constructor).
  split; [exact Hr|]. split; [reflexivity|].
  exact (fallback_moves_every_operand
           (CallEinsum "ij,jk->ik" [2; 1]) heap0 [tr; tb] Hr eq_refl).
Defined.

Lemma dispatch_reads_first_device_only_witness :
  refers heap0 (operands (CallBmm 0 1)) [ta; tb]
  /\ refers heap1 (operands (CallBmm 0 1)) [ta; tb_cuda]
  /\ device ta = device ta
  /\ map dtype [ta; tb] = map dtype [ta; tb_cuda]
  /\ took_fallback (out_calls (invoke (CallBmm 0 1) heap0)) =
     _needs_cpu_fallback (device ta) [ta; tb]
  /\ took_fallback (out_calls (invoke (CallBmm 0 1) heap0)) =
     took_fallback (out_calls (invoke (CallBmm 0 1) heap1)).
Proof.
  assert (Hr : refers heap0 (operands (CallBmm 0 1)) [ta; tb])
    by (repeat constructor).
  assert (Hr' : refers heap1 (operands (CallBmm 0 1)) [ta; tb_cuda])
    by (repeat constructor).
  split; [exact Hr|]. split; [exact Hr'|]. split; [reflexivity|].
  split; [reflexivity|].
  exact (dispatch_reads_first_device_only
           (CallBmm 0 1) heap0 heap1 ta [tb] ta [tb_cuda] Hr Hr' eq_refl eq_refl).
Defined.

Lemma wrappers_do_not_mutate_inputs_witness :
  refers heap0 (operands (CallMatmul 0 1)) [ta; tb]
  /\ refers (out_heap (invoke (CallMatmul 0 1) heap0)) (operands (CallMatmul 0 1))
            [ta; tb]
  /\ (forall r, out_res (invoke (CallMatmul 0 1) heap0) = inr r ->
        length heap0 <= r < length (out_heap (invoke (CallMatmul 0 1) heap0))).
Proof.
  assert (Hr : refers heap0 (operands (CallMatmul 0 1)) [ta; tb])
    by (repeat constructor).
  split; [exact Hr|].
  destruct (wrappers_do_not_mutate_inputs (CallMatmul 0 1) heap0 [ta; tb] Hr)
    as (_ & _ & Hsame & Hfresh).
  split; [exact Hsame|exact Hfresh].
Defined.

End Runs.

(** ** Further properties of the module *)

Section More.
Context {L : Library}.

(** *** The capability check as a disjunction over the tensors *)

Lemma any_listed_complex_app (ts ts' : list Tensor) :
  any_listed_complex (ts ++ ts') =
  any_listed_complex ts || any_listed_complex ts'.
Proof.
  induction ts as [|t ts IH]; [reflexivity|].
  cbn. destruct (bool_decide _); [reflexivity|exact IH].
Qed.

Lemma any_listed_complex_perm (ts ts' : list Tensor) :
  ts ≡ₚ ts' -> any_listed_complex ts = any_listed_complex ts'.
Proof.
  intros Hp. apply eq_true_iff_eq. rewrite !any_listed_complex_spec.
  split; intros (t & Hin & Hd); exists t; split; try assumption.
  - rewrite <- Hp. assumption.
  - rewrite Hp. assumption.
Qed.

(** The early-return loop of [_needs_cpu_fallback] is a disjunction: the
    check on a concatenation is the [or] of the checks on the parts, so
    adding tensors never turns True into False, and the order in which
    the tensors are passed does not matter. *)
Theorem needs_cpu_fallback_any (d : Device) (ts ts' : list Tensor) :
  _needs_cpu_fallback d (ts ++ ts') =
    _needs_cpu_fallback d ts || _needs_cpu_fallback d ts'
  /\ (_needs_cpu_fallback d ts = true ->
      _needs_cpu_fallback d (ts ++ ts') = true /\
      _needs_cpu_fallback d (ts' ++ ts) = true)
  /\ (ts ≡ₚ ts' -> _needs_cpu_fallback d ts = _needs_cpu_fallback d ts').
Proof.
  unfold _needs_cpu_fallback. destruct (negb _).
  - repeat split; try reflexivity; discriminate.
  - rewrite !any_listed_complex_app. split; [reflexivity|].
    split; [|apply any_listed_complex_perm].
    intros ->. rewrite orb_true_r. split; reflexivity.
Qed.

(** *** Which path, and where the result lives *)

Lemma not_complex_not_listed (ts : list Tensor) :
  Forall (fun t => is_complex (dtype t) = false) ts ->
  any_listed_complex ts = false.
Proof.
  induction 1 as [|t ts Ht _ IH]; [reflexivity|].
  cbn. rewrite IH. destruct (dtype t); try reflexivity; discriminate.
Qed.

(** Operands of real (or integer, or boolean) dtype never leave their
    device, 'mps' included: the wrapper is the native call, and that call
    is the only library call made. *)
Theorem real_operands_run_native c h t0 trest :
  refers h (operands c) (t0 :: trest) ->
  Forall (fun t => is_complex (dtype t) = false) (t0 :: trest) ->
  invoke c h = native c h
  /\ out_calls (invoke c h) = [CallNative (operator c) (operands c)].
Proof.
  intros Hr Hreal.
  assert (Hn : _needs_cpu_fallback (device t0) (t0 :: trest) = false).
  { unfold _needs_cpu_fallback. rewrite (not_complex_not_listed _ Hreal).
    destruct (negb _); reflexivity. }
  destruct (invoke_native _ _ _ _ Hr Hn) as [-> _].
  split; [reflexivity|]. apply (native_calls _ _ _ _ Hr).
Qed.

Lemma returned_device c h t0 trest r :
  refers h (operands c) (t0 :: trest) ->
  out_res (invoke c h) = inr r ->
  exists t, out_heap (invoke c h) !! r = Some t /\ device t = device t0.
Proof.
  intros Hr.
  destruct (_needs_cpu_fallback (device t0) (t0 :: trest)) eqn:Hn.
  - destruct (invoke_fallback _ _ _ _ Hr Hn) as (extra & ls' & _ & _ & ->).
    destruct (dispatch _ _) as [e|r0]; cbn [out_res out_heap]; [discriminate|].
    intros [= <-]. exists (on_device (device t0) r0).
    split; [rewrite app_assoc; apply lookup_second_last|reflexivity].
  - destruct (invoke_native _ _ _ _ Hr Hn) as [-> ->].
    destruct (dispatch _ _) as [e|r0] eqn:Ed; cbn [out_res out_heap];
      [discriminate|].
    intros [= <-]. exists r0.
    split; [apply list_lookup_middle; reflexivity|].
    apply dispatch_device in Ed. exact Ed.
Qed.



(** The path taken does not depend on which of the four wrappers is
    called, nor on the einsum equation: two calls on the same operand
    list take the same path. *)
Theorem path_independent_of_operator c c' h ts :
  refers h (operands c) ts ->
  operands c' = operands c ->
  took_fallback (out_calls (invoke c h)) =
  took_fallback (out_calls (invoke c' h)).
Proof.
  intros Hr Ho. destruct ts as [|t0 trest].
  - destruct (no_operands_is_einsum _ _ Hr) as [equation ->].
    destruct c'; try discriminate. cbn in Ho. subst. reflexivity.
  - rewrite (took_fallback_invoke _ _ _ _ Hr).
    rewrite <- Ho in Hr. rewrite (took_fallback_invoke _ _ _ _ Hr).
    reflexivity.
Qed.

(** *** Where the other operands are *)

Lemma to_cpu_canonical_eq (t : Tensor) :
  cpu_canonical t -> to_cpu t = mkTensor cpu_device (dtype t) (payload t).
Proof.
  unfold cpu_canonical, to_cpu.
  destruct (String.eqb_spec (dev_type (device t)) "cpu") as [Hc|Hc];
    [|reflexivity].
  intros Hcan. destruct t as [d dt x]. cbn in *. rewrite (Hcan Hc). reflexivity.
Qed.

Lemma map_to_cpu_values (ts ts' : list Tensor) :
  Forall cpu_canonical ts -> Forall cpu_canonical ts' ->
  map value ts = map value ts' -> map to_cpu ts = map to_cpu ts'.
Proof.
  intros Hc. revert ts'. induction Hc as [|t ts Ht _ IH];
    intros [|t' ts'] Hc' Hv; try discriminate; [reflexivity|].
  inversion Hc' as [|? ? Ht' Hrest]; subst.
  cbn in Hv. injection Hv as Hd Hp Hv. cbn.
  rewrite (IH _ Hrest Hv), (to_cpu_canonical_eq _ Ht), (to_cpu_canonical_eq _ Ht').
  rewrite Hd, Hp. reflexivity.
Qed.

(** On the fallback path the outcome depends on the first operand's
    device and on the operands' dtypes and contents only: wherever the
    other operands are, the same exception is raised or an equal tensor
    is returned. *)
Theorem fallback_result_ignores_placement c h h' t0 trest t0' trest' :
  refers h (operands c) (t0 :: trest) ->
  refers h' (operands c) (t0' :: trest') ->
  took_fallback (out_calls (invoke c h)) = true ->
  device t0 = device t0' ->
  map value (t0 :: trest) = map value (t0' :: trest') ->
  Forall cpu_canonical (t0 :: trest) ->
  Forall cpu_canonical (t0' :: trest') ->
  (exists e, out_res (invoke c h) = inl e /\ out_res (invoke c h') = inl e)
  \/ (exists r r' t,
        out_res (invoke c h) = inr r /\ out_res (invoke c h') = inr r' /\
        out_heap (invoke c h) !! r = Some t /\
        out_heap (invoke c h') !! r' = Some t).
Proof.
  intros Hr Hr' Htf Hd Hv Hc Hc'.
  rewrite (took_fallback_invoke _ _ _ _ Hr) in Htf.
  assert (Htf' : _needs_cpu_fallback (device t0') (t0' :: trest') = true).
  { rewrite <- Htf. apply needs_cpu_fallback_dtypes; [rewrite Hd; reflexivity|].
    apply (f_equal (map fst)) in Hv. rewrite !map_map in Hv. symmetry. exact Hv. }
  destruct (invoke_fallback _ _ _ _ Hr Htf) as (extra & ls & _ & _ & ->).
  destruct (invoke_fallback _ _ _ _ Hr' Htf') as (extra' & ls' & _ & _ & ->).
  rewrite <- (map_to_cpu_values _ _ Hc Hc' Hv), <- Hd.
  destruct (dispatch _ _) as [e|r0]; cbn [out_res out_heap].
  - left. eauto.
  - right. do 3 eexists. split; [reflexivity|]. split; [reflexivity|].
    split; rewrite app_assoc; apply lookup_second_last.
Qed.

(** *** What the fallback path adds to the store *)

Lemma mapM_cpu_exact ls : forall h ts,
  refers h ls ts ->
  mapM cpu ls h =
    mkOutcome (h ++ cpu_copies ts)
              (zip_with CallCpu ls (cpu_refs (length h) ls ts))
              (inr (cpu_refs (length h) ls ts)).
Proof.
  induction ls as [|l ls IH]; intros h ts Hr.
  - inversion Hr; subst. cbn. unfold ret, cpu_copies. cbn.
    rewrite app_nil_r. reflexivity.
  - inversion Hr as [|? t ? ts' Hl Hrest]; subst.
    pose proof (cpu_run _ _ _ Hl) as Hc.
    cbn [mapM cpu_refs]. unfold cpu_copies, on_cpu in *. cbn [List.filter].
    destruct (String.eqb (dev_type (device t)) "cpu") eqn:Ecpu; cbn [negb map].
    + rewrite (bind_ok _ _ _ _ _ _ Hc), (bind_ok _ _ _ _ _ _ (IH h ts' Hrest)).
      cbn. rewrite app_nil_r. reflexivity.
    + pose proof (IH (h ++ [on_device cpu_device t]) ts'
                    (refers_app _ _ _ _ Hrest)) as Hm.
      rewrite (bind_ok _ _ _ _ _ _ Hc), (bind_ok _ _ _ _ _ _ Hm).
      cbn. rewrite app_nil_r, <- app_assoc, length_app. cbn.
      rewrite Nat.add_1_r. reflexivity.
Qed.

Lemma cpu_refs_length n ls ts :
  length ls = length ts -> length (cpu_refs n ls ts) = length ls.
Proof.
  revert n ts. induction ls as [|l ls IH]; intros n [|t ts] E;
    try discriminate; [reflexivity|].
  cbn in *. destruct (on_cpu t); cbn; rewrite IH; congruence.
Qed.

(** An operand in CPU memory is passed on as the object it is; any other
    is replaced by an object that was not in the store. *)
Lemma cpu_refs_spec ls : forall n ts,
  length ls = length ts ->
  Forall3 (fun l t l' => if on_cpu t then l' = l else n <= l')
          ls ts (cpu_refs n ls ts).
Proof.
  induction ls as [|l ls IH]; intros n [|t ts] E; try discriminate;
    [constructor|].
  cbn in *. injection E as E. destruct (on_cpu t) eqn:Ec.
  - constructor; [rewrite Ec; reflexivity|apply IH, E].
  - constructor; [rewrite Ec; reflexivity|].
    eapply Forall3_impl; [apply (IH (S n)), E|].
    cbn. intros l0 t1 l'. destruct (on_cpu t1); [auto|lia].
Qed.

Lemma cpu_refs_refers h ls ts :
  refers h ls ts ->
  refers (h ++ cpu_copies ts) (cpu_refs (length h) ls ts) (map to_cpu ts).
Proof.
  intros Hr.
  destruct (mapM_cpu_run _ _ _ Hr) as (extra & ls' & Hm & Hr' & _).
  rewrite (mapM_cpu_exact _ _ _ Hr) in Hm.
  pose proof (f_equal out_heap Hm) as Hh.
  pose proof (f_equal out_res Hm) as Hres.
  cbn [out_heap out_res] in Hh, Hres.
  apply app_inv_head in Hh. injection Hres as Hres. rewrite Hh, Hres. exact Hr'.
Qed.

Lemma invoke_fallback_exact c h t0 trest :
  refers h (operands c) (t0 :: trest) ->
  _needs_cpu_fallback (device t0) (t0 :: trest) = true ->
  invoke c h =
    match dispatch (operator c) (map to_cpu (t0 :: trest)) with
    | inl e =>
        mkOutcome (h ++ cpu_copies (t0 :: trest))
          (zip_with CallCpu (operands c)
                    (cpu_refs (length h) (operands c) (t0 :: trest)) ++
           [CallNative (operator c)
                       (cpu_refs (length h) (operands c) (t0 :: trest))])
          (inl (TorchError e))
    | inr r =>
        mkOutcome (h ++ cpu_copies (t0 :: trest) ++ [r; on_device (device t0) r])
          (zip_with CallCpu (operands c)
                    (cpu_refs (length h) (operands c) (t0 :: trest)) ++
           [CallNative (operator c)
                       (cpu_refs (length h) (operands c) (t0 :: trest));
            CallTo (length (h ++ cpu_copies (t0 :: trest))) (device t0)
                   (S (length (h ++ cpu_copies (t0 :: trest))))])
          (inr (S (length (h ++ cpu_copies (t0 :: trest)))))
    end.
Proof.
  intros Hr Hn.
  destruct (operands c) as [|first rest] eqn:Eo; [inversion Hr|].
  assert (Hl : h !! first = Some t0) by (inversion Hr; assumption).
  rewrite (invoke_shape _ _ _ _ Eo). unfold wrapper.
  rewrite (bind_pure _ _ _ _ (mapM_deref_ok _ _ _ Hr)).
  rewrite (bind_pure _ _ _ _ (deref_ok _ _ _ Hl)).
  rewrite Hn, (bind_ok _ _ _ _ _ _ (mapM_cpu_exact _ _ _ Hr)).
  pose proof (torch_call_run _ (operator c) _ _ (cpu_refs_refers _ _ _ Hr)) as Ht.
  destruct (dispatch (operator c) (map to_cpu (t0 :: trest))) as [e|r] eqn:Ed.
  - rewrite (bind_raise _ _ _ _ _ _ Ht). reflexivity.
  - rewrite (bind_ok _ _ _ _ _ _ Ht).
    assert (Hlk : ((h ++ cpu_copies (t0 :: trest)) ++ [r])
                    !! length (h ++ cpu_copies (t0 :: trest)) = Some r)
      by (apply list_lookup_middle; reflexivity).
    rewrite (to_run _ _ _ (device t0) Hlk).
    apply needs_cpu_fallback_true in Hn as [Hmps _].
    cbn [map] in Ed. apply dispatch_device in Ed.
    unfold to_cpu in Ed. rewrite Hmps in Ed. cbn in Ed.
    rewrite bool_decide_false.
    2:{ rewrite Ed. intros Heq. rewrite <- Heq in Hmps. discriminate. }
    cbn [out_heap out_calls out_res].
    rewrite <- !app_assoc. cbn [app].
    replace (length (h ++ cpu_copies (t0 :: trest) ++ [r]))
      with (S (length (h ++ cpu_copies (t0 :: trest))))
      by (rewrite !length_app; cbn; lia).
    reflexivity.
Qed.


(** The same tensor passed as both operands is copied to the CPU twice
    on the fallback path: [.cpu()] is called once per operand, and the
    operator receives two distinct new objects. *)
Theorem same_tensor_twice_copied_twice c h a t :
  operands c = [a; a] ->
  h !! a = Some t ->
  took_fallback (out_calls (invoke c h)) = true ->
  exists later_calls later_objs,
    out_calls (invoke c h) =
      CallCpu a (length h) :: CallCpu a (S (length h)) ::
      CallNative (operator c) [length h; S (length h)] :: later_calls
    /\ out_heap (invoke c h) =
         h ++ on_device cpu_device t :: on_device cpu_device t :: later_objs.
Proof.
  intros Eo Hl Htf.
  assert (Hr : refers h (operands c) [t; t])
    by (rewrite Eo; repeat constructor; assumption).
  rewrite (took_fallback_invoke _ _ _ _ Hr) in Htf.
  rewrite (invoke_fallback_exact _ _ _ _ Hr Htf), Eo.
  apply needs_cpu_fallback_true in Htf as [Hmps _].
  unfold cpu_copies. cbn [cpu_refs List.filter]. unfold on_cpu.
  rewrite Hmps. cbn [String.eqb Ascii.eqb Bool.eqb negb map zip_with app].
  destruct (dispatch _ _); cbn [out_calls out_heap]; eauto.
Qed.

End More.

(** ** The further properties on concrete tensors *)

Section MoreRuns.
Import RefTorch.

Ltac canonical_operands :=
  repeat constructor; unfold cpu_canonical; cbn; intros E;
  first [discriminate E | reflexivity].

Lemma real_operands_run_native_witness :
  refers heap0 (operands (CallMm 2 2)) [tr; tr]
  /\ Forall (fun t => is_complex (dtype t) = false) [tr; tr]
  /\ invoke (CallMm 2 2) heap0 = native (CallMm 2 2) heap0
  /\ out_calls (invoke (CallMm 2 2) heap0) = [CallNative Mm [2; 2]].
Proof.
  assert (Hr : refers heap0 (operands (CallMm 2 2)) [tr; tr])
    by (repeat constructor).
  assert (Hreal : Forall (fun t => is_complex (dtype t) = false) [tr; tr])
    by (repeat constructor).
  split; [exact Hr|]. split; [exact Hreal|].
  exact (real_operands_run_native (CallMm 2 2) heap0 tr [tr] Hr Hreal).
Defined.


Lemma path_independent_of_operator_witness :
  refers heap0 (operands (CallMatmul 0 1)) [ta; tb]
  /\ operands (CallEinsum "ij,jk->ik" [0; 1]) = operands (CallMatmul 0 1)
  /\ took_fallback (out_calls (invoke (CallMatmul 0 1) heap0)) =
     took_fallback (out_calls (invoke (CallEinsum "ij,jk->ik" [0; 1]) heap0)).
Proof.
  assert (Hr : refers heap0 (operands (CallMatmul 0 1)) [ta; tb])
    by (repeat constructor).
  split; [exact Hr|]. split; [reflexivity|].
  exact (path_independent_of_operator
           (CallMatmul 0 1) (CallEinsum "ij,jk->ik" [0; 1]) heap0 [ta; tb]
           Hr eq_refl).
Defined.

Lemma fallback_result_ignores_placement_witness :
  refers heap0 (operands (CallMatmul 0 1)) [ta; tb]
  /\ refers heap1 (operands (CallMatmul 0 1)) [ta; tb_cuda]
  /\ took_fallback (out_calls (invoke (CallMatmul 0 1) heap0)) = true
  /\ map value [ta; tb] = map value [ta; tb_cuda]
  /\ Forall cpu_canonical [ta; tb]
  /\ Forall cpu_canonical [ta; tb_cuda]
  /\ ((exists e, out_res (invoke (CallMatmul 0 1) heap0) = inl e /\
                 out_res (invoke (CallMatmul 0 1) heap1) = inl e)
      \/ (exists r r' t,
            out_res (invoke (CallMatmul 0 1) heap0) = inr r /\
            out_res (invoke (CallMatmul 0 1) heap1) = inr r' /\
            out_heap (invoke (CallMatmul 0 1) heap0) !! r = Some t /\
            out_heap (invoke (CallMatmul 0 1) heap1) !! r' = Some t)).
Proof.
  assert (Hr : refers heap0 (operands (CallMatmul 0 1)) [ta; tb])
    by (repeat constructor).
  assert (Hr' : refers heap1 (operands (CallMatmul 0 1)) [ta; tb_cuda])
    by (repeat constructor).
  assert (Hc : Forall cpu_canonical [ta; tb]) by canonical_operands.
  assert (Hc' : Forall cpu_canonical [ta; tb_cuda]) by canonical_operands.
  split; [exact Hr|]. split; [exact Hr'|]. split; [reflexivity|].
  split; [reflexivity|]. split; [exact Hc|]. split; [exact Hc'|].
  exact (fallback_result_ignores_placement
           (CallMatmul 0 1) heap0 heap1 ta [tb] ta [tb_cuda]
           Hr Hr' eq_refl eq_refl eq_refl Hc Hc').
Defined.


Lemma same_tensor_twice_copied_twice_witness :
  operands (CallBmm 0 0) = [0; 0]
  /\ heap0 !! 0 = Some ta
  /\ took_fallback (out_calls (invoke (CallBmm 0 0) heap0)) = true
  /\ exists later_calls later_objs,
       out_calls (invoke (CallBmm 0 0) heap0) =
         CallCpu 0 (length heap0) :: CallCpu 0 (S (length heap0)) ::
         CallNative Bmm [length heap0; S (length heap0)] :: later_calls
       /\ out_heap (invoke (CallBmm 0 0) heap0) =
            heap0 ++ on_device cpu_device ta :: on_device cpu_device ta :: later_objs.
Proof.
  split; [reflexivity|]. split; [reflexivity|]. split; [reflexivity|].
  exact (same_tensor_twice_copied_twice (CallBmm 0 0) heap0 0 ta
           eq_refl eq_refl eq_refl).
Defined.


End MoreRuns.
